(** * Seed selector nodes (seed_selector_int.py): model and properties

    A shallow embedding of the three node classes of [seed_selector_int.py]
    ([SeedSelectorInt], [MySeedSelectorInt], [SeedSelectorIntWithDisplay]).
    Python integers are [Z]; the class attributes [_previous_seeds] are
    dictionaries ([gmap]) keyed by the host's [unique_id], where Python's
    [None] is the key [None : option string]; the methods run in a small
    state-and-exception monad over the process state (the three class
    dictionaries and the state of the system random source). *)

From Stdlib Require Import ZArith String Ascii List Lia.
From Stdlib Require Import Floats.SpecFloat.
From stdpp Require Import gmap strings pretty.

Open Scope Z_scope.

(** ** Python values *)

(** [INT32_MAX = 2_147_483_647] (line 5). *)
Definition INT32_MAX : Z := 2147483647.

(** The Python values that the nodes receive and return. A float is an IEEE
    754 datum ([spec_float]); the only one the file builds is [float("nan")]. *)
Inductive pyval : Type :=
| PyInt (z : Z)
| PyFloat (f : spec_float)
| PyStr (s : string)
| PyNone.

(** [int(x)] on an [int] is the identity. *)
Definition py_int (x : Z) : Z := x.

(** [str(x)] on an [int], as an f-string field [{x}] renders it. *)
Definition py_str_int (x : Z) : string := pretty x.

(** [float("nan")]. *)
Definition float_nan : spec_float := S754_nan.

(** Exact comparison of a float with an integer, as Python's [==] does it:
    a finite float [(-1)^s * m * 2^e] equals [z] when the two numbers are the
    same rational; an infinity or a NaN equals no integer. *)
Definition float_eq_int (f : spec_float) (z : Z) : bool :=
  match f with
  | S754_zero _ => z =? 0
  | S754_finite s m e =>
      let v := if s then Z.neg m else Z.pos m in
      if 0 <=? e then z =? v * 2 ^ e else z * 2 ^ (- e) =? v
  | S754_infinity _ | S754_nan => false
  end.

(** Python's [a == b] on these values. *)
Definition py_eq (a b : pyval) : bool :=
  match a, b with
  | PyInt x, PyInt y => x =? y
  | PyFloat f, PyFloat g => SFeqb f g
  | PyFloat f, PyInt y => float_eq_int f y
  | PyInt x, PyFloat g => float_eq_int g x
  | PyStr s, PyStr t => String.eqb s t
  | PyNone, PyNone => true
  | _, _ => false
  end.

(** Python's [a != b]: what the host evaluates between the value of
    [IS_CHANGED] and the one it cached. *)
Definition py_ne (a b : pyval) : bool := negb (py_eq a b).

(** ** Process state and the monad of the methods *)

(** The process-wide state: each class statement evaluates its own
    [_previous_seeds = {}] (lines 20, 100 and 177), so there are three
    dictionaries, one per class object; [sysrand] is the state of the
    operating system's random source that [secrets] reads. *)
Record World (Src : Type) : Type := mkWorld {
  SeedSelectorInt_previous_seeds : gmap (option string) Z;
  MySeedSelectorInt_previous_seeds : gmap (option string) Z;
  SeedSelectorIntWithDisplay_previous_seeds : gmap (option string) Z;
  sysrand : Src;
}.
Arguments mkWorld {Src} _ _ _ _.
Arguments SeedSelectorInt_previous_seeds {Src} _.
Arguments MySeedSelectorInt_previous_seeds {Src} _.
Arguments SeedSelectorIntWithDisplay_previous_seeds {Src} _.
Arguments sysrand {Src} _.

(** The state at import time: the three dictionaries are empty. *)
Definition initial_world {Src : Type} (s : Src) : World Src :=
  mkWorld ∅ ∅ ∅ s.

Inductive exn : Type :=
| ValueError (msg : string).

(** A call either returns a value or raises, and leaves a state behind. *)
Inductive outcome (Src A : Type) : Type :=
| Returns (a : A) (w : World Src)
| Raises (e : exn) (w : World Src).
Arguments Returns {Src A} _ _.
Arguments Raises {Src A} _ _.

Definition Py (Src A : Type) : Type := World Src -> outcome Src A.

Definition ret {Src A : Type} (a : A) : Py Src A := fun w => Returns a w.

Definition bind {Src A B : Type} (m : Py Src A) (k : A -> Py Src B) : Py Src B :=
  fun w =>
    match m w with
    | Returns a w' => k a w'
    | Raises e w' => Raises e w'
    end.

(** [raise e]. *)
Definition raise {Src A : Type} (e : exn) : Py Src A := fun w => Raises e w.

Notation "'let!' x ':=' m 'in' k" := (bind m (fun x => k))
  (at level 10, x name, m at level 100, k at level 200).

Definition final_world {Src A : Type} (o : outcome Src A) : World Src :=
  match o with
  | Returns _ w => w
  | Raises _ w => w
  end.

(** ** The random source ([import secrets]) *)

(** [random.SystemRandom]: [_randbelow n] draws from the operating system's
    source; the draw is a function of the source's state, and moves it. *)
Class SystemRandom (Src : Type) : Type := {
  _randbelow : Z -> Src -> Z * Src;
}.

(** [_sysrand._randbelow(n)] on the process's source: the draw is returned
    and the source is left in its next state; the dictionaries are not
    touched. *)
Definition sysrand_randbelow {Src : Type} `{!SystemRandom Src} (n : Z) : Py Src Z :=
  fun w =>
    let '(r, s') := _randbelow n (sysrand w) in
    Returns r
      (mkWorld (SeedSelectorInt_previous_seeds w)
               (MySeedSelectorInt_previous_seeds w)
               (SeedSelectorIntWithDisplay_previous_seeds w) s').

Module secrets.

(** [secrets.randbelow]: "Return a random int in the range [0, n)"; it
    raises [ValueError] when the bound is not positive, and otherwise
    returns [_sysrand._randbelow(exclusive_upper_bound)]. *)
Definition randbelow {Src : Type} `{!SystemRandom Src}
    (exclusive_upper_bound : Z) : Py Src Z :=
  if exclusive_upper_bound <=? 0
  then raise (ValueError "Upper bound must be positive.")
  else sysrand_randbelow exclusive_upper_bound.

End secrets.

(** ** Class attributes *)

(** The three node classes (the values of [NODE_CLASS_MAPPINGS]). *)
Inductive node_class : Type :=
| SeedSelectorInt
| MySeedSelectorInt
| SeedSelectorIntWithDisplay.

Global Instance node_class_eq_dec : EqDecision node_class.
Proof. solve_decision. Defined.

(** [cls._previous_seeds]: the dictionary of the class object [cls]. An
    instance has no attribute of that name of its own, so
    [self._previous_seeds] is the dictionary of its class. *)
Definition _previous_seeds {Src : Type} (cls : node_class) (w : World Src)
    : gmap (option string) Z :=
  match cls with
  | SeedSelectorInt => SeedSelectorInt_previous_seeds w
  | MySeedSelectorInt => MySeedSelectorInt_previous_seeds w
  | SeedSelectorIntWithDisplay => SeedSelectorIntWithDisplay_previous_seeds w
  end.

Definition set_previous_seeds {Src : Type} (cls : node_class)
    (d : gmap (option string) Z) (w : World Src) : World Src :=
  match cls with
  | SeedSelectorInt =>
      mkWorld d (MySeedSelectorInt_previous_seeds w)
              (SeedSelectorIntWithDisplay_previous_seeds w) (sysrand w)
  | MySeedSelectorInt =>
      mkWorld (SeedSelectorInt_previous_seeds w) d
              (SeedSelectorIntWithDisplay_previous_seeds w) (sysrand w)
  | SeedSelectorIntWithDisplay =>
      mkWorld (SeedSelectorInt_previous_seeds w)
              (MySeedSelectorInt_previous_seeds w) d (sysrand w)
  end.

(** [cls._previous_seeds.get(key, default)]. *)
Definition previous_seeds_get {Src : Type} (cls : node_class)
    (key : option string) (dflt : Z) : Py Src Z :=
  fun w => Returns (default dflt (_previous_seeds cls w !! key)) w.

(** [cls._previous_seeds[key] = value]: the shared dictionary is updated in
    place. *)
Definition previous_seeds_setitem {Src : Type} (cls : node_class)
    (key : option string) (value : Z) : Py Src unit :=
  fun w => Returns tt (set_previous_seeds cls (<[key := value]> (_previous_seeds cls w)) w).

(** [x is not None]. *)
Definition is_not_None {A : Type} (x : option A) : bool :=
  match x with
  | Some _ => true
  | None => false
  end.

(** What a [select] method returns: either the dictionary
    [{"ui": {...}, "result": (...)}], its ["ui"] entries in the order they
    are written, or a bare tuple. *)
Inductive select_return : Type :=
| RetDict (ui : list (string * list pyval)) (result : list pyval)
| RetTuple (items : list pyval).

(** ** The node classes *)

Module SeedSelectorInt.

(** [IS_CHANGED(cls, seed, **kwargs)] (lines 53-56). *)
Definition IS_CHANGED (seed : Z) (kwargs : list (string * pyval)) : pyval :=
  PyFloat float_nan.

(** [_randint_inclusive(self, max_val)] (lines 58-60). *)
Definition _randint_inclusive {Src : Type} `{!SystemRandom Src}
    (max_val : Z) : Py Src Z :=
  let max_val := py_int (Z.max 0 (Z.min max_val INT32_MAX)) in
  if max_val <? INT32_MAX
  then secrets.randbelow (max_val + 1)
  else secrets.randbelow INT32_MAX.

(** [select(self, seed, max_val, unique_id, extra_pnginfo)] (lines 62-83). *)
Definition select {Src : Type} (seed : Z) (max_val : Z)
    (unique_id : option string) (extra_pnginfo : pyval) : Py Src select_return :=
  let! previous_seed := previous_seeds_get SeedSelectorInt unique_id 0 in
  let! _ :=
    if is_not_None unique_id
    then previous_seeds_setitem SeedSelectorInt unique_id (py_int seed)
    else ret tt in
  ret (RetDict
         [("seed"%string, [PyInt (py_int seed)]);
          ("previous_seed"%string, [PyInt previous_seed])]
         [PyInt (py_int seed); PyInt previous_seed]).

End SeedSelectorInt.

Module MySeedSelectorInt.

(** [IS_CHANGED(cls, **kwargs)] (lines 129-132). *)
Definition IS_CHANGED (kwargs : list (string * pyval)) : pyval :=
  PyFloat float_nan.

(** [select(self, seed, control_after_generate, unique_id, extra_pnginfo)]
    (lines 134-162). *)
Definition select {Src : Type} (seed : Z) (control_after_generate : string)
    (unique_id : option string) (extra_pnginfo : pyval) : Py Src select_return :=
  let! previous_seed := previous_seeds_get MySeedSelectorInt unique_id 0 in
  let! _ :=
    if is_not_None unique_id
    then previous_seeds_setitem MySeedSelectorInt unique_id (py_int seed)
    else ret tt in
  let s := py_int seed in
  let debug_msg :=
    ("seed=" +:+ py_str_int s +:+ " | previous=" +:+ py_str_int previous_seed
       +:+ " | mode=" +:+ control_after_generate)%string in
  ret (RetDict
         [("seed_value"%string, [PyInt s]);
          ("previous_seed_value"%string, [PyInt previous_seed]);
          ("text"%string, [PyStr debug_msg])]
         [PyInt s; PyInt previous_seed; PyStr debug_msg]).

End MySeedSelectorInt.

Module SeedSelectorIntWithDisplay.

(** [IS_CHANGED(cls, seed, **kwargs)] (lines 211-213). *)
Definition IS_CHANGED (seed : Z) (kwargs : list (string * pyval)) : pyval :=
  PyFloat float_nan.

(** [select(self, seed, max_val, unique_id, extra_pnginfo)] (lines 215-236):
    it returns the bare tuple. *)
Definition select {Src : Type} (seed : Z) (max_val : Z)
    (unique_id : option string) (extra_pnginfo : pyval) : Py Src select_return :=
  let! previous_seed := previous_seeds_get SeedSelectorIntWithDisplay unique_id 0 in
  let! _ :=
    if is_not_None unique_id
    then previous_seeds_setitem SeedSelectorIntWithDisplay unique_id (py_int seed)
    else ret tt in
  let s := py_int seed in
  let seed_display := ("Current: " +:+ py_str_int s)%string in
  let previous_display := ("Previous: " +:+ py_str_int previous_seed)%string in
  ret (RetTuple [PyInt s; PyInt previous_seed; PyStr seed_display; PyStr previous_display]).

End SeedSelectorIntWithDisplay.

(** ** The host's side of the plugin contract *)

(** One execution request: the class of the node, the resolved inputs (the
    required [seed], the optional field the class declares, [max_val] or
    [control_after_generate]) and the hidden inputs. *)
Record call : Type := mkCall {
  call_class : node_class;
  call_seed : Z;
  call_max_val : Z;
  call_control_after_generate : string;
  call_unique_id : option string;
  call_extra_pnginfo : pyval;
}.

(** The host runs the method named by [FUNCTION = "select"] of the class. *)
Definition invoke {Src : Type} (c : call) : Py Src select_return :=
  match call_class c with
  | SeedSelectorInt =>
      SeedSelectorInt.select (call_seed c) (call_max_val c)
        (call_unique_id c) (call_extra_pnginfo c)
  | MySeedSelectorInt =>
      MySeedSelectorInt.select (call_seed c) (call_control_after_generate c)
        (call_unique_id c) (call_extra_pnginfo c)
  | SeedSelectorIntWithDisplay =>
      SeedSelectorIntWithDisplay.select (call_seed c) (call_max_val c)
        (call_unique_id c) (call_extra_pnginfo c)
  end.

(** Executions happen one after the other, each on the state the previous
    one left. *)
Fixpoint run_calls {Src : Type} (cs : list call) : Py Src (list select_return) :=
  match cs with
  | [] => ret []
  | c :: cs' =>
      let! r := invoke c in
      let! rs := run_calls cs' in
      ret (r :: rs)
  end.

(** The output tuple: the value under ["result"], or the bare tuple. *)
Definition result_of (r : select_return) : list pyval :=
  match r with
  | RetDict _ result => result
  | RetTuple items => items
  end.

(** The UI payload: the value under ["ui"], when there is one. *)
Definition ui_of (r : select_return) : option (list (string * list pyval)) :=
  match r with
  | RetDict ui _ => Some ui
  | RetTuple _ => None
  end.

(** The outputs named ["seed"] and ["previous_seed"] in [RETURN_NAMES]:
    positions 0 and 1 of the output tuple. *)
Definition seed_of (r : select_return) : option pyval := result_of r !! 0%nat.
Definition previous_seed_of (r : select_return) : option pyval := result_of r !! 1%nat.

(** The states the process can be in: the state at import time, and the
    states that executions and samplings lead to. *)
Inductive reachable {Src : Type} `{!SystemRandom Src} : World Src -> Prop :=
| reachable_initial (s : Src) : reachable (initial_world s)
| reachable_invoke (c : call) (w : World Src) :
    reachable w -> reachable (final_world (invoke c w))
| reachable_randint (m : Z) (w : World Src) :
    reachable w -> reachable (final_world (SeedSelectorInt._randint_inclusive m w)).

(** ** A concrete random source *)

(** An entropy pool read as one big number: a draw below [n] takes the
    pool's residue modulo [n] and leaves the quotient. *)
Definition pool_randbelow (n : Z) (pool : Z) : Z * Z := (pool mod n, pool / n).

Global Instance pool_SystemRandom : SystemRandom Z := {
  _randbelow := pool_randbelow;
}.

(** The calls of a sequence that go to the node of class [cls] with
    identifier [k], and what a run returned to them. *)
Definition addressed_to (cls : node_class) (k : option string) (c : call) : Prop :=
  call_class c = cls ∧ call_unique_id c = k.

Global Instance addressed_to_dec cls k c : Decision (addressed_to cls k c).
Proof. unfold addressed_to. apply _. Defined.

Definition returned_to (cls : node_class) (k : option string)
    (cs : list call) (rs : list select_return) : list select_return :=
  (filter (λ p, addressed_to cls k p.1) (zip cs rs)).*2.

(** The calls [(K, S1), ..., (K, Sn)] to one node: same class and identifier,
    the seeds and the other inputs as given. *)
Definition calls_to (cls : node_class) (k : option string)
    (inputs : list (Z * Z * string * pyval)) : list call :=
  map (λ '(seed, max_val, mode, extra), mkCall cls seed max_val mode k extra) inputs.

Definition seeds_of (inputs : list (Z * Z * string * pyval)) : list Z :=
  map (λ '(seed, _, _, _), seed) inputs.

(** A request with the optional inputs at their declared defaults
    ([max_val = INT32_MAX], [control_after_generate = "randomize"],
    [extra_pnginfo = None]). *)
Definition default_call (cls : node_class) (seed : Z) (unique_id : option string) : call :=
  mkCall cls seed INT32_MAX "randomize" unique_id PyNone.

(** A value that [==] never finds equal to anything, on either side. *)
Definition incomparable (v : pyval) : Prop :=
  ∀ x : pyval, py_eq v x = false ∧ py_eq x v = false ∧ py_ne v x = true.

(** ** The declared schemas and the registration tables *)

(** The values found in the option dictionaries of [INPUT_TYPES]. *)
Inductive schema_value : Type :=
| SInt (z : Z)
| SBool (b : bool)
| SStr (s : string).

(** The first component of a field descriptor: a type name such as ["INT"],
    or the list of the choices of an enumeration. *)
Inductive input_kind : Type :=
| KindName (name : string)
| KindChoices (choices : list string).

(** The dictionary that [INPUT_TYPES] returns; each dictionary literal is
    kept as the list of its items, in the order they are written. *)
Record input_types : Type := mkInputTypes {
  required : list (string * (input_kind * list (string * schema_value)));
  optional : list (string * (input_kind * list (string * schema_value)));
  hidden : list (string * string);
}.

(** [d.get(key)] on a dictionary literal whose keys are distinct. *)
Fixpoint dict_lookup {A : Type} (key : string) (d : list (string * A)) : option A :=
  match d with
  | [] => None
  | (k, v) :: d' => if String.eqb k key then Some v else dict_lookup key d'
  end.

(** [INPUT_TYPES(cls)] (lines 22-47, 102-124 and 179-204). *)
Definition INPUT_TYPES (cls : node_class) : input_types :=
  match cls with
  | SeedSelectorInt =>
      mkInputTypes
        [("seed", (KindName "INT",
                   [("default", SInt 0); ("min", SInt 0); ("max", SInt INT32_MAX);
                    ("step", SInt 1); ("control_after_generate", SBool true);
                    ("display", SStr "number")]))]
        [("max_val", (KindName "INT",
                      [("default", SInt INT32_MAX); ("min", SInt 1);
                       ("max", SInt INT32_MAX); ("step", SInt 1)]))]
        [("unique_id", "UNIQUE_ID"); ("extra_pnginfo", "EXTRA_PNGINFO")]
  | MySeedSelectorInt =>
      mkInputTypes
        [("seed", (KindName "INT",
                   [("default", SInt 0); ("min", SInt 0); ("max", SInt INT32_MAX);
                    ("step", SInt 1); ("control_after_generate", SBool true);
                    ("display", SStr "number")]))]
        [("control_after_generate",
          (KindChoices ["fixed"; "increment"; "decrement"; "randomize"],
           [("default", SStr "randomize")]))]
        [("unique_id", "UNIQUE_ID"); ("extra_pnginfo", "EXTRA_PNGINFO")]
  | SeedSelectorIntWithDisplay =>
      mkInputTypes
        [("seed", (KindName "INT",
                   [("default", SInt 0); ("min", SInt 0); ("max", SInt INT32_MAX);
                    ("step", SInt 1); ("control_after_generate", SBool true);
                    ("display", SStr "number")]))]
        [("max_val", (KindName "INT",
                      [("default", SInt INT32_MAX); ("min", SInt 1);
                       ("max", SInt INT32_MAX); ("step", SInt 1)]))]
        [("unique_id", "UNIQUE_ID"); ("extra_pnginfo", "EXTRA_PNGINFO")]
  end%string.

(** [RETURN_TYPES] and [RETURN_NAMES] of each class (lines 49-50, 126-127 and
    206-208). *)
Definition RETURN_TYPES (cls : node_class) : list string :=
  match cls with
  | SeedSelectorInt => ["INT"; "INT"]
  | MySeedSelectorInt => ["INT"; "INT"; "STRING"]
  | SeedSelectorIntWithDisplay => ["INT"; "INT"; "STRING"; "STRING"]
  end%string.

Definition RETURN_NAMES (cls : node_class) : list string :=
  match cls with
  | SeedSelectorInt => ["seed"; "previous_seed"]
  | MySeedSelectorInt => ["seed"; "previous_seed"; "debug"]
  | SeedSelectorIntWithDisplay =>
      ["seed"; "previous_seed"; "seed_display"; "previous_display"]
  end%string.

(** [NODE_CLASS_MAPPINGS] and [NODE_DISPLAY_NAME_MAPPINGS] (lines 240-250). *)
Definition NODE_CLASS_MAPPINGS : list (string * node_class) :=
  [("SeedSelectorInt", SeedSelectorInt);
   ("MySeedSelectorInt", MySeedSelectorInt);
   ("SeedSelectorIntWithDisplay", SeedSelectorIntWithDisplay)]%string.

Definition NODE_DISPLAY_NAME_MAPPINGS : list (string * string) :=
  [("SeedSelectorInt", "Seed Selector (INT)");
   ("MySeedSelectorInt", "My Seed Selector (INT)");
   ("SeedSelectorIntWithDisplay", "Seed Selector with Display")]%string.

(** The integer stored under [name] in an option dictionary. *)
Definition option_int (name : string) (opts : list (string * schema_value)) : option Z :=
  match dict_lookup name opts with
  | Some (SInt z) => Some z
  | _ => None
  end.

(** What a field descriptor admits: an ["INT"] field admits the integers
    between its ["min"] and its ["max"] (a bound that is not declared does
    not constrain), an enumeration admits its choices. *)
Definition admissible (spec : input_kind * list (string * schema_value)) (v : pyval) : bool :=
  match spec.1, v with
  | KindName name, PyInt z =>
      String.eqb name "INT"
      && from_option (λ lo, lo <=? z) true (option_int "min" spec.2)
      && from_option (λ hi, z <=? hi) true (option_int "max" spec.2)
  | KindChoices choices, PyStr s => bool_decide (s ∈ choices)
  | _, _ => false
  end.

(** The integers that the required field ["seed"] of a class admits. *)
Definition admissible_seed (cls : node_class) (z : Z) : bool :=
  match dict_lookup "seed" (required (INPUT_TYPES cls)) with
  | Some spec => admissible spec (PyInt z)
  | None => false
  end.

(** The value declared under ["default"], as a Python value. *)
Definition declared_default (spec : input_kind * list (string * schema_value)) : option pyval :=
  match dict_lookup "default" spec.2 with
  | Some (SInt z) => Some (PyInt z)
  | Some (SStr s) => Some (PyStr s)
  | _ => None
  end.

(** A value of the output type named [t]. *)
Definition has_return_type (t : string) (v : pyval) : bool :=
  match v with
  | PyInt _ => String.eqb t "INT"
  | PyStr _ => String.eqb t "STRING"
  | _ => false
  end.

(** The seeds given, in order, by the calls of a sequence that go to the
    node of class [cls] with identifier [k]. *)
Definition seeds_to (cls : node_class) (k : option string) (cs : list call) : list Z :=
  call_seed <$> filter (addressed_to cls k) cs.

(** Every entry of every dictionary is a seed that the class admits. *)
Definition entries_admissible {Src : Type} (w : World Src) : Prop :=
  ∀ cls k v, _previous_seeds cls w !! k = Some v -> admissible_seed cls v = true.

(** Whether a string holds a space. *)
Fixpoint has_space (s : string) : bool :=
  match s with
  | EmptyString => false
  | String a s' => Ascii.eqb a " "%char || has_space s'
  end.

(** ** Properties *)

Section Properties.

Context {Src : Type} `{!SystemRandom Src}.

Implicit Types (w : World Src) (c : call) (cls : node_class)
  (k : option string) (d : gmap (option string) Z).

(** *** The class dictionaries *)

Lemma previous_seeds_set_same cls d w :
  _previous_seeds cls (set_previous_seeds cls d w) = d.
Proof. destruct cls; reflexivity. Qed.

Lemma previous_seeds_set_other cls cls' d w :
  cls ≠ cls' ->
  _previous_seeds cls' (set_previous_seeds cls d w) = _previous_seeds cls' w.
Proof. destruct cls, cls'; intros Hne; try reflexivity; congruence. Qed.

Lemma sysrand_set_previous_seeds cls d w :
  sysrand (set_previous_seeds cls d w) = sysrand w.
Proof. destruct cls; reflexivity. Qed.

(** *** One execution *)

(** The state an execution leaves: the entry of the node is overwritten
    with the seed when there is an identifier, and nothing changes when
    there is none. *)
Lemma invoke_final_world c w :
  final_world (invoke c w) =
    if is_not_None (call_unique_id c)
    then set_previous_seeds (call_class c)
           (<[call_unique_id c := call_seed c]> (_previous_seeds (call_class c) w)) w
    else w.
Proof. destruct c as [[] seed mv mode [uid|] extra]; reflexivity. Qed.

(** An execution returns; its outputs [seed] and [previous_seed] are the
    seed given and the entry read before the update. *)
Lemma invoke_returns c w :
  ∃ r, invoke c w = Returns r (final_world (invoke c w))
       ∧ seed_of r = Some (PyInt (call_seed c))
       ∧ previous_seed_of r =
           Some (PyInt (default 0 (_previous_seeds (call_class c) w !! call_unique_id c))).
Proof.
  destruct c as [[] seed mv mode [uid|] extra]; eexists; (split; [reflexivity|]);
    split; reflexivity.
Qed.

(** What an execution returns depends on the state only through the entry
    of its node. *)
Lemma invoke_agree c w1 w2 :
  _previous_seeds (call_class c) w1 !! call_unique_id c
    = _previous_seeds (call_class c) w2 !! call_unique_id c ->
  ∃ r, invoke c w1 = Returns r (final_world (invoke c w1))
       ∧ invoke c w2 = Returns r (final_world (invoke c w2)).
Proof.
  destruct c as [[] seed mv mode [uid|] extra]; cbn; intros Heq; eexists;
    (split; [reflexivity|]); unfold bind, previous_seeds_get; cbn; rewrite Heq;
    reflexivity.
Qed.

(** An execution changes no entry but the one of its node. *)
Lemma invoke_frame c w cls k :
  ¬ addressed_to cls k c ->
  _previous_seeds cls (final_world (invoke c w)) !! k = _previous_seeds cls w !! k.
Proof.
  intros Hna. rewrite invoke_final_world.
  destruct (call_unique_id c) as [uid|] eqn:Huid; cbn; [|reflexivity].
  destruct (decide (call_class c = cls)) as [Hc|Hne].
  - rewrite Hc, previous_seeds_set_same. apply lookup_insert_ne.
    intros <-. apply Hna. split; [exact Hc | exact Huid].
  - rewrite previous_seeds_set_other by exact Hne. reflexivity.
Qed.

(** After an execution with an identifier, the entry of the node is the
    seed. *)
Lemma invoke_stores c w uid :
  call_unique_id c = Some uid ->
  _previous_seeds (call_class c) (final_world (invoke c w)) !! Some uid
    = Some (call_seed c).
Proof.
  intros Huid. rewrite invoke_final_world, Huid. cbn.
  rewrite previous_seeds_set_same. apply lookup_insert_eq.
Qed.

(** *** Sequences of executions *)

Lemma run_calls_cons c cs w r rs w' :
  invoke c w = Returns r (final_world (invoke c w)) ->
  run_calls cs (final_world (invoke c w)) = Returns rs w' ->
  run_calls (c :: cs) w = Returns (r :: rs) w'.
Proof.
  intros Hc Hcs. cbn. unfold bind at 1. rewrite Hc.
  unfold bind at 1. rewrite Hcs. reflexivity.
Qed.

(** Every sequence of executions runs to its end, one return value per
    call. *)
Lemma run_calls_returns cs w :
  ∃ rs w', run_calls cs w = Returns rs w' ∧ length rs = length cs.
Proof.
  revert w. induction cs as [|c cs IH]; intros w.
  - exists [], w. split; reflexivity.
  - destruct (invoke_returns c w) as (r & Hr & _).
    destruct (IH (final_world (invoke c w))) as (rs & w' & Hrs & Hlen).
    exists (r :: rs), w'. split.
    + eapply run_calls_cons; eassumption.
    + cbn. rewrite Hlen. reflexivity.
Qed.

(** The calls to one node return, as previous seeds, the entry found at the
    start followed by the seeds given, the last one left out. *)
Lemma run_calls_same_node cls (uid : string) inputs w :
  ∃ rs w',
    run_calls (calls_to cls (Some uid) inputs) w = Returns rs w'
    ∧ previous_seed_of <$> rs
      = (λ s, Some (PyInt s)) <$>
          take (length inputs)
            (default 0 (_previous_seeds cls w !! Some uid) :: seeds_of inputs).
Proof.
  revert w. induction inputs as [|[[[seed mv] mode] extra] inputs IH]; intros w.
  - exists [], w. split; reflexivity.
  - set (c := mkCall cls seed mv mode (Some uid) extra).
    destruct (invoke_returns c w) as (r & Hr & _ & Hprev).
    destruct (IH (final_world (invoke c w))) as (rs & w' & Hrs & Hprevs).
    exists (r :: rs), w'. split.
    + change (calls_to cls (Some uid) ((seed, mv, mode, extra) :: inputs))
        with (c :: calls_to cls (Some uid) inputs).
      eapply run_calls_cons; eassumption.
    + pose proof (invoke_stores c w uid eq_refl) as Hst.
      change (call_class c) with cls in Hst.
      change (call_seed c) with seed in Hst.
      rewrite Hst in Hprevs.
      rewrite fmap_cons, Hprev, Hprevs. reflexivity.
Qed.

(** The entry of a node after one of its executions. *)
Lemma invoke_entry_after c w :
  _previous_seeds (call_class c) (final_world (invoke c w)) !! call_unique_id c
    = match call_unique_id c with
      | Some _ => Some (call_seed c)
      | None => _previous_seeds (call_class c) w !! None
      end.
Proof.
  destruct (call_unique_id c) as [uid|] eqn:Huid.
  - apply invoke_stores. exact Huid.
  - rewrite invoke_final_world, Huid. reflexivity.
Qed.

Lemma returned_to_cons_True cls k c cs r rs :
  addressed_to cls k c ->
  returned_to cls k (c :: cs) (r :: rs) = r :: returned_to cls k cs rs.
Proof.
  intros Ha. unfold returned_to. cbn [zip zip_with].
  rewrite filter_cons_True by exact Ha. reflexivity.
Qed.

Lemma returned_to_cons_False cls k c cs r rs :
  ¬ addressed_to cls k c ->
  returned_to cls k (c :: cs) (r :: rs) = returned_to cls k cs rs.
Proof.
  intros Ha. unfold returned_to. cbn [zip zip_with].
  rewrite filter_cons_False by exact Ha. reflexivity.
Qed.

(** What a run returns to one node is what the node's own calls return
    when they run alone, from any state with the same entry for the node:
    the calls to other nodes in between make no difference. *)
Lemma run_calls_projection cls k cs :
  ∀ w1 w2,
    _previous_seeds cls w1 !! k = _previous_seeds cls w2 !! k ->
    ∃ rs w1' rs0 w2',
      run_calls cs w1 = Returns rs w1'
      ∧ run_calls (filter (addressed_to cls k) cs) w2 = Returns rs0 w2'
      ∧ returned_to cls k cs rs = rs0.
Proof.
  induction cs as [|c cs IH]; intros w1 w2 Hent.
  - exists [], w1, [], w2. repeat split.
  - destruct (decide (addressed_to cls k c)) as [Ha|Hna].
    + destruct Ha as [Hcls Hk].
      assert (Hent' : _previous_seeds (call_class c) w1 !! call_unique_id c
                      = _previous_seeds (call_class c) w2 !! call_unique_id c)
        by (rewrite Hcls, Hk; exact Hent).
      destruct (invoke_agree c w1 w2 Hent') as (r & Hr1 & Hr2).
      pose proof (invoke_entry_after c w1) as E1.
      pose proof (invoke_entry_after c w2) as E2.
      rewrite Hcls, Hk in E1, E2.
      assert (Hnext : _previous_seeds cls (final_world (invoke c w1)) !! k
                      = _previous_seeds cls (final_world (invoke c w2)) !! k).
      { rewrite E1, E2. destruct k; [reflexivity|exact Hent]. }
      destruct (IH _ _ Hnext) as (rs & w1' & rs0 & w2' & Hrs & Hrs0 & Hret).
      exists (r :: rs), w1', (r :: rs0), w2'. split; [|split].
      * eapply run_calls_cons; eassumption.
      * rewrite filter_cons_True by (split; assumption).
        eapply run_calls_cons; eassumption.
      * rewrite returned_to_cons_True by (split; assumption).
        rewrite Hret. reflexivity.
    + destruct (invoke_returns c w1) as (r & Hr & _).
      assert (Hnext : _previous_seeds cls (final_world (invoke c w1)) !! k
                      = _previous_seeds cls w2 !! k)
        by (rewrite invoke_frame by exact Hna; exact Hent).
      destruct (IH _ _ Hnext) as (rs & w1' & rs0 & w2' & Hrs & Hrs0 & Hret).
      exists (r :: rs), w1', rs0, w2'. split; [|split].
      * eapply run_calls_cons; eassumption.
      * rewrite filter_cons_False by exact Hna. exact Hrs0.
      * rewrite returned_to_cons_False by exact Hna. exact Hret.
Qed.

(** *** The sampler and the dictionaries *)

Lemma sysrand_randbelow_previous_seeds n cls w :
  _previous_seeds cls (final_world (sysrand_randbelow n w)) = _previous_seeds cls w.
Proof.
  unfold sysrand_randbelow. destruct (_randbelow n (sysrand w)) as [r s'].
  destruct cls; reflexivity.
Qed.

Lemma randbelow_previous_seeds n cls w :
  _previous_seeds cls (final_world (secrets.randbelow n w)) = _previous_seeds cls w.
Proof.
  unfold secrets.randbelow. destruct (n <=? 0).
  - reflexivity.
  - apply sysrand_randbelow_previous_seeds.
Qed.

Lemma randint_inclusive_previous_seeds m cls w :
  _previous_seeds cls (final_world (SeedSelectorInt._randint_inclusive m w))
    = _previous_seeds cls w.
Proof.
  unfold SeedSelectorInt._randint_inclusive.
  destruct (_ <? _); apply randbelow_previous_seeds.
Qed.

(** No dictionary ever holds the key [None]: the update is guarded by
    [unique_id is not None]. *)
Lemma reachable_no_None_key w :
  reachable w -> ∀ cls, _previous_seeds cls w !! None = None.
Proof.
  induction 1 as [s|c w Hw IH|m w Hw IH]; intros cls.
  - destruct cls; apply lookup_empty.
  - destruct (call_unique_id c) as [uid|] eqn:Huid.
    + rewrite invoke_frame; [apply IH|].
      intros [_ Hk]. congruence.
    + rewrite invoke_final_world, Huid. apply IH.
  - rewrite randint_inclusive_previous_seeds. apply IH.
Qed.

(** *** The tracker *)

(** C1: for every node class, every identifier [uid] with no entry yet and
    every sequence of executions [(uid, S1), ..., (uid, Sn)] of that class,
    every call returns, the first one returns [previous_seed = 0] and the
    call after the one that was given the seed [s] returns
    [previous_seed = s]: the entry is read before it is overwritten. *)
Theorem previous_seed_is_seed_of_previous_call cls (uid : string) inputs w :
  _previous_seeds cls w !! Some uid = None ->
  ∃ rs w',
    run_calls (calls_to cls (Some uid) inputs) w = Returns rs w'
    ∧ length rs = length inputs
    ∧ (∀ r, rs !! 0%nat = Some r -> previous_seed_of r = Some (PyInt 0))
    ∧ (∀ i r s, rs !! S i = Some r -> seeds_of inputs !! i = Some s ->
         previous_seed_of r = Some (PyInt s)).
Proof.
  intros Hfresh.
  destruct (run_calls_same_node cls uid inputs w) as (rs & w' & Hrun & Hprev).
  rewrite Hfresh in Hprev. cbn [default] in Hprev.
  assert (Hlen : length rs = length inputs).
  { apply (f_equal length) in Hprev. rewrite !length_fmap, length_take in Hprev.
    cbn [length] in Hprev. unfold seeds_of in Hprev. rewrite length_map in Hprev. lia. }
  assert (Hat : ∀ i r, rs !! i = Some r ->
            Some (previous_seed_of r)
            = (λ s, Some (PyInt s)) <$> ((0 :: seeds_of inputs) !! i)).
  { intros i r Hi.
    pose proof (lookup_lt_Some _ _ _ Hi) as Hlt.
    apply (f_equal (λ l, l !! i)) in Hprev.
    rewrite !list_lookup_fmap, Hi in Hprev.
    rewrite lookup_take_lt in Hprev by lia. exact Hprev. }
  exists rs, w'. split; [exact Hrun|]. split; [exact Hlen|]. split.
  - intros r Hr. specialize (Hat _ _ Hr). cbn in Hat. congruence.
  - intros i r s Hr Hs. specialize (Hat _ _ Hr).
    change ((0 :: seeds_of inputs) !! S i) with (seeds_of inputs !! i) in Hat.
    rewrite Hs in Hat. cbn in Hat. congruence.
Qed.

(** C3, as the code has it: each class keeps a dictionary of its own. An
    execution of one class with [(uid, S)] followed by an execution of a
    class with [(uid, S')] makes the second call return [S] when the two
    classes are the same, and otherwise the entry that the second class
    itself had for [uid] before both calls (0 when it had none). *)
Theorem previous_seed_across_classes cls1 cls2 (uid : string)
    S mv1 mode1 extra1 S' mv2 mode2 extra2 w :
  ∃ r1 w1 r2 w2,
    invoke (mkCall cls1 S mv1 mode1 (Some uid) extra1) w = Returns r1 w1
    ∧ invoke (mkCall cls2 S' mv2 mode2 (Some uid) extra2) w1 = Returns r2 w2
    ∧ previous_seed_of r2
      = Some (PyInt (if decide (cls1 = cls2) then S
                     else default 0 (_previous_seeds cls2 w !! Some uid))).
Proof.
  set (c1 := mkCall cls1 S mv1 mode1 (Some uid) extra1).
  set (c2 := mkCall cls2 S' mv2 mode2 (Some uid) extra2).
  destruct (invoke_returns c1 w) as (r1 & Hr1 & _).
  destruct (invoke_returns c2 (final_world (invoke c1 w))) as (r2 & Hr2 & _ & Hp2).
  exists r1, (final_world (invoke c1 w)), r2, (final_world (invoke c2 (final_world (invoke c1 w)))).
  split; [exact Hr1|]. split; [exact Hr2|].
  rewrite Hp2. change (call_class c2) with cls2. change (call_unique_id c2) with (Some uid).
  destruct (decide (cls1 = cls2)) as [<-|Hne].
  - pose proof (invoke_stores c1 w uid eq_refl) as Hst.
    change (call_class c1) with cls1 in Hst. rewrite Hst. reflexivity.
  - rewrite invoke_frame; [reflexivity|].
    intros [Hc _]. apply Hne. exact Hc.
Qed.

(** C4: for two distinct identifiers [k1] and [k2], an execution with [k1]
    leaves the entry of [k2] unchanged in every dictionary; and in any
    sequence of executions, what is returned to the node [k1] and to the
    node [k2] of a class is what the calls of each return when they run
    alone: each sees its own history of previous seeds. *)
Theorem distinct_identifiers_independent cls (k1 k2 : option string) :
  k1 ≠ k2 ->
  (∀ c w cls', call_unique_id c = k1 ->
     _previous_seeds cls' (final_world (invoke c w)) !! k2
       = _previous_seeds cls' w !! k2)
  ∧ (∀ cs w, ∃ rs w' rs1 w1 rs2 w2,
       run_calls cs w = Returns rs w'
       ∧ run_calls (filter (addressed_to cls k1) cs) w = Returns rs1 w1
       ∧ run_calls (filter (addressed_to cls k2) cs) w = Returns rs2 w2
       ∧ returned_to cls k1 cs rs = rs1
       ∧ returned_to cls k2 cs rs = rs2).
Proof.
  intros Hne. split.
  - intros c w cls' Hk. apply invoke_frame.
    intros [_ Hk2]. congruence.
  - intros cs w.
    destruct (run_calls_projection cls k1 cs w w eq_refl)
      as (rs & w' & rs1 & w1 & Hrs & Hrs1 & Hret1).
    destruct (run_calls_projection cls k2 cs w w eq_refl)
      as (rs' & w'' & rs2 & w2 & Hrs' & Hrs2 & Hret2).
    rewrite Hrs in Hrs'. injection Hrs' as <- <-.
    exists rs, w', rs1, w1, rs2, w2. repeat split; assumption.
Qed.

(** C5: in every state the process can reach, an execution without
    identifier ([unique_id] is [None]) returns [previous_seed = 0] and
    leaves the state as it was; two such executions in a row (seed 5 then
    seed 9, say) both return 0 and leave the state as it was. *)
Theorem no_identifier_no_persistence w c1 c2 :
  reachable w ->
  call_unique_id c1 = None ->
  call_unique_id c2 = None ->
  ∃ r1 r2,
    invoke c1 w = Returns r1 w
    ∧ previous_seed_of r1 = Some (PyInt 0)
    ∧ invoke c2 w = Returns r2 w
    ∧ previous_seed_of r2 = Some (PyInt 0)
    ∧ run_calls [c1; c2] w = Returns [r1; r2] w.
Proof.
  intros Hw H1 H2.
  destruct (invoke_returns c1 w) as (r1 & Hr1 & _ & Hp1).
  destruct (invoke_returns c2 w) as (r2 & Hr2 & _ & Hp2).
  rewrite invoke_final_world, H1 in Hr1. cbn in Hr1.
  rewrite invoke_final_world, H2 in Hr2. cbn in Hr2.
  rewrite H1, (reachable_no_None_key w Hw) in Hp1.
  rewrite H2, (reachable_no_None_key w Hw) in Hp2.
  exists r1, r2. repeat split; try assumption.
  cbn. unfold bind. rewrite Hr1, Hr2. reflexivity.
Qed.

(** *** Outputs *)

(** C7, as the code has it: every execution returns the seed, the previous
    seed and the display strings of its class in the output tuple; the
    classes [SeedSelectorInt] and [MySeedSelectorInt] also return a UI
    payload that holds each output in a list of its own, while
    [SeedSelectorIntWithDisplay] returns the bare tuple and no UI
    payload. *)
Theorem select_outputs c w :
  ∃ r w',
    invoke c w = Returns r w'
    ∧ (∀ ui, ui_of r = Some ui -> ui.*2 = (λ v, [v]) <$> result_of r)
    ∧ let s := call_seed c in
      let p := default 0 (_previous_seeds (call_class c) w !! call_unique_id c) in
      match call_class c with
      | SeedSelectorInt =>
          result_of r = [PyInt s; PyInt p]
          ∧ ui_of r = Some [("seed"%string, [PyInt s]);
                            ("previous_seed"%string, [PyInt p])]
      | MySeedSelectorInt =>
          let debug :=
            ("seed=" +:+ py_str_int s +:+ " | previous=" +:+ py_str_int p
               +:+ " | mode=" +:+ call_control_after_generate c)%string in
          result_of r = [PyInt s; PyInt p; PyStr debug]
          ∧ ui_of r = Some [("seed_value"%string, [PyInt s]);
                            ("previous_seed_value"%string, [PyInt p]);
                            ("text"%string, [PyStr debug])]
      | SeedSelectorIntWithDisplay =>
          result_of r = [PyInt s; PyInt p;
                         PyStr ("Current: " +:+ py_str_int s)%string;
                         PyStr ("Previous: " +:+ py_str_int p)%string]
          ∧ ui_of r = None
      end.
Proof.
  destruct c as [[] seed mv mode [uid|] extra]; eexists _, _;
    (split; [reflexivity|]);
    (split; [intros ui [= <-]; reflexivity || discriminate | split; reflexivity]).
Qed.

(** C8: for every class and every input, [IS_CHANGED] returns the float
    NaN, a value that [==] finds equal to no value, itself included, so
    that [!=] against a cached result always holds. *)
Theorem IS_CHANGED_incomparable (seed : Z) (kwargs : list (string * pyval)) :
  Forall (λ v, v = PyFloat S754_nan ∧ incomparable v ∧ py_eq v v = false)
    [SeedSelectorInt.IS_CHANGED seed kwargs;
     MySeedSelectorInt.IS_CHANGED kwargs;
     SeedSelectorIntWithDisplay.IS_CHANGED seed kwargs].
Proof.
  assert (Hnan : incomparable (PyFloat S754_nan)).
  { intros x. unfold py_ne. destruct x as [z|f| |]; try (repeat split; reflexivity).
    destruct f; repeat split; reflexivity. }
  repeat constructor; apply Hnan.
Qed.

(** C9: an execution is a function of its inputs and of the dictionaries
    alone: the value returned and the dictionaries left are the same
    whatever the state of the random source, and the source is left as it
    was (nothing is drawn). *)
Theorem select_deterministic c d1 d2 d3 :
  ∃ r d1' d2' d3',
    ∀ s : Src, invoke c (mkWorld d1 d2 d3 s) = Returns r (mkWorld d1' d2' d3' s).
Proof.
  destruct c as [[] seed mv mode [uid|] extra]; eexists _, _, _, _; intros s;
    unfold invoke, bind; cbn; reflexivity.
Qed.

End Properties.

(** ** The bounded random sampler *)

Section Sampler.

Context {Src : Type} `{!SystemRandom Src}.

Implicit Types (w : World Src).

(** The bound the sampler hands to [secrets.randbelow]: the clamped
    [max_val] plus one, except at [INT32_MAX], where it is [INT32_MAX]
    itself. *)
Lemma randint_inclusive_unfold m :
  SeedSelectorInt._randint_inclusive m
    = secrets.randbelow
        (if Z.max 0 (Z.min m INT32_MAX) <? INT32_MAX
         then Z.max 0 (Z.min m INT32_MAX) + 1
         else INT32_MAX).
Proof.
  unfold SeedSelectorInt._randint_inclusive, py_int.
  destruct (_ <? _); reflexivity.
Qed.

(** On a positive bound [secrets.randbelow] returns the draw of the source
    and leaves the source in its next state. *)
Lemma randbelow_positive n w :
  0 < n ->
  secrets.randbelow n w
    = Returns (_randbelow n (sysrand w)).1
        (mkWorld (SeedSelectorInt_previous_seeds w)
                 (MySeedSelectorInt_previous_seeds w)
                 (SeedSelectorIntWithDisplay_previous_seeds w)
                 (_randbelow n (sysrand w)).2).
Proof.
  intros Hn. unfold secrets.randbelow.
  destruct (n <=? 0) eqn:Hle; [apply Z.leb_le in Hle; lia|].
  unfold sysrand_randbelow. destruct (_randbelow n (sysrand w)); reflexivity.
Qed.

Lemma randbelow_nonpositive n w :
  n <= 0 ->
  secrets.randbelow n w = Raises (ValueError "Upper bound must be positive.") w.
Proof.
  intros Hn. unfold secrets.randbelow.
  destruct (n <=? 0) eqn:Hle; [reflexivity|apply Z.leb_gt in Hle; lia].
Qed.

(** The bound is at least 1, so the sampler returns, whatever the source
    draws. *)
Lemma randint_inclusive_bound_positive m :
  1 <= (if Z.max 0 (Z.min m INT32_MAX) <? INT32_MAX
        then Z.max 0 (Z.min m INT32_MAX) + 1
        else INT32_MAX).
Proof. destruct (_ <? _); unfold INT32_MAX; lia. Qed.

Lemma randint_inclusive_returns m w :
  ∃ r w', SeedSelectorInt._randint_inclusive m w = Returns r w'.
Proof.
  rewrite randint_inclusive_unfold.
  pose proof (randint_inclusive_bound_positive m) as Hpos.
  rewrite randbelow_positive by lia. eauto.
Qed.

(** The contract of [_randbelow]: "Return a random int in the range
    [0, n)", and every integer of the range can be drawn. *)
Hypothesis _randbelow_range :
  ∀ n s, 0 < n -> 0 <= (_randbelow n s).1 < n.
Hypothesis _randbelow_onto :
  ∀ n r, 0 <= r < n -> ∃ s, (_randbelow n s).1 = r.

(** The value returned lies between 0 and the clamped bound; at
    [INT32_MAX] and above it lies below [INT32_MAX]. *)
Lemma randint_inclusive_range m w :
  ∃ r w',
    SeedSelectorInt._randint_inclusive m w = Returns r w'
    ∧ 0 <= r <= Z.max 0 (Z.min m INT32_MAX)
    ∧ (INT32_MAX <= m -> r < INT32_MAX).
Proof.
  rewrite randint_inclusive_unfold.
  pose proof (randint_inclusive_bound_positive m) as Hpos.
  rewrite randbelow_positive by lia.
  eexists _, _. split; [reflexivity|].
  match goal with |- context [_randbelow ?n ?s] =>
    pose proof (_randbelow_range n s ltac:(lia)) as Hr end.
  destruct (_ <? _) eqn:Hlt.
  - apply Z.ltb_lt in Hlt. lia.
  - apply Z.ltb_ge in Hlt. lia.
Qed.

(** Below [INT32_MAX] the bound itself can be drawn. *)
Lemma randint_inclusive_attains m d1 d2 d3 :
  0 <= m < INT32_MAX ->
  ∃ s w', SeedSelectorInt._randint_inclusive m (mkWorld d1 d2 d3 s) = Returns m w'.
Proof.
  intros Hm. destruct (_randbelow_onto (m + 1) m ltac:(lia)) as [s Hs].
  exists s. rewrite randint_inclusive_unfold.
  replace (Z.max 0 (Z.min m INT32_MAX)) with m by lia.
  destruct (m <? INT32_MAX) eqn:Hlt; [|apply Z.ltb_ge in Hlt; lia].
  rewrite randbelow_positive by lia. cbn [sysrand]. rewrite Hs. eauto.
Qed.

(** *** The sampler's bounds *)

(** At [max_val = INT32_MAX] the sampler returns a value that is at least 0
    and strictly below [INT32_MAX]; the bound itself is never returned,
    whatever the source draws. *)
Theorem randint_inclusive_INT32_MAX_not_attained w :
  ∃ r w',
    SeedSelectorInt._randint_inclusive INT32_MAX w = Returns r w'
    ∧ 0 <= r < INT32_MAX
    ∧ r ≠ INT32_MAX.
Proof.
  destruct (randint_inclusive_range INT32_MAX w) as (r & w' & Hrun & Hr & Hlt).
  exists r, w'. split; [exact Hrun|]. specialize (Hlt ltac:(lia)). lia.
Qed.

(** For every bound [1 <= M <= INT32_MAX] the sampler returns a value in
    [0, M], and for [M < INT32_MAX] some state of the source makes it
    return [M] itself. *)
Theorem randint_inclusive_inclusive_below_INT32_MAX M :
  1 <= M <= INT32_MAX ->
  (∀ w, ∃ r w',
     SeedSelectorInt._randint_inclusive M w = Returns r w' ∧ 0 <= r <= M)
  ∧ (M < INT32_MAX ->
     ∀ d1 d2 d3, ∃ s w',
       SeedSelectorInt._randint_inclusive M (mkWorld d1 d2 d3 s) = Returns M w').
Proof.
  intros HM. split.
  - intros w.
    destruct (randint_inclusive_range M w) as (r & w' & Hrun & Hr & _).
    exists r, w'. split; [exact Hrun|]. lia.
  - intros Hlt d1 d2 d3. apply randint_inclusive_attains. lia.
Qed.

(** C6: for every bound above [INT32_MAX] the sampler is the same
    computation as at [INT32_MAX]: the same function of the state of the
    random source. *)
Theorem randint_inclusive_clamped_above M :
  INT32_MAX < M ->
  SeedSelectorInt._randint_inclusive M
    = SeedSelectorInt._randint_inclusive (Src:=Src) INT32_MAX.
Proof.
  intros HM. rewrite !randint_inclusive_unfold.
  replace (Z.min M INT32_MAX) with (Z.min INT32_MAX INT32_MAX) by lia.
  reflexivity.
Qed.

(** C10: for every integer [m] the sampler calls [secrets.randbelow] on a
    bound that is at least 1, so it returns and never raises; and for
    [m <= 0] it returns 0. *)
Theorem randint_inclusive_total m w :
  (∃ n, 1 <= n ∧ SeedSelectorInt._randint_inclusive m = secrets.randbelow (Src:=Src) n)
  ∧ (∃ r w', SeedSelectorInt._randint_inclusive m w = Returns r w')
  ∧ (∀ e w', SeedSelectorInt._randint_inclusive m w ≠ Raises e w')
  ∧ (m <= 0 -> ∃ w', SeedSelectorInt._randint_inclusive m w = Returns 0 w').
Proof.
  split; [|split; [|split]].
  - eexists. split; [|apply randint_inclusive_unfold].
    apply randint_inclusive_bound_positive.
  - apply randint_inclusive_returns.
  - intros e w' Hraise.
    destruct (randint_inclusive_returns m w) as (r & w'' & Hret). congruence.
  - intros Hm.
    destruct (randint_inclusive_range m w) as (r & w' & Hrun & Hr & _).
    assert (r = 0) as -> by lia. exists w'. exact Hrun.
Qed.

End Sampler.

(** ** The concrete random source meets the contract *)

Lemma pool_randbelow_range (n s : Z) : 0 < n -> 0 <= (pool_randbelow n s).1 < n.
Proof. intros Hn. cbn. apply Z.mod_pos_bound. exact Hn. Qed.

Lemma pool_randbelow_onto (n r : Z) : 0 <= r < n -> ∃ s, (pool_randbelow n s).1 = r.
Proof. intros Hr. exists r. cbn. apply Z.mod_small. exact Hr. Qed.

(** ** The scenarios of the specification, on the concrete source *)

(** C1 at the scenario "identifier node-1, calls with seed=42 then seed=7":
    the previous seeds returned are 0 and then 42. *)
Lemma previous_seed_is_seed_of_previous_call_witness :
  _previous_seeds MySeedSelectorInt (initial_world 0) !! Some "node-1"%string = None
  ∧ ∃ rs w',
      run_calls
        (calls_to MySeedSelectorInt (Some "node-1"%string)
           [(42, INT32_MAX, "randomize"%string, PyNone);
            (7, INT32_MAX, "randomize"%string, PyNone)])
        (initial_world 0) = Returns rs w'
      ∧ length rs = 2%nat
      ∧ (∀ r, rs !! 0%nat = Some r -> previous_seed_of r = Some (PyInt 0))
      ∧ (∀ i r s, rs !! S i = Some r -> [42; 7] !! i = Some s ->
           previous_seed_of r = Some (PyInt s)).
Proof.
  split; [reflexivity|].
  apply (previous_seed_is_seed_of_previous_call MySeedSelectorInt "node-1"
           [(42, INT32_MAX, "randomize"%string, PyNone);
            (7, INT32_MAX, "randomize"%string, PyNone)] (initial_world 0)).
  reflexivity.
Defined.

(** C3 as stated fails: after [SeedSelectorInt] ran with [("node-1", 42)],
    [MySeedSelectorInt] run with [("node-1", 7)] returns the previous seed 0,
    not 42. *)
Lemma shared_tracker_counterexample :
  ∃ r1 w1 r2 w2,
    invoke (default_call SeedSelectorInt 42 (Some "node-1"%string)) (initial_world 0)
      = Returns r1 w1
    ∧ invoke (default_call MySeedSelectorInt 7 (Some "node-1"%string)) w1
      = Returns r2 w2
    ∧ previous_seed_of r2 = Some (PyInt 0)
    ∧ previous_seed_of r2 ≠ Some (PyInt 42).
Proof.
  eexists _, _, _, _. split; [reflexivity|]. split; [reflexivity|].
  split; [reflexivity|discriminate].
Qed.

(** C4 at the identifiers "node-1" and "node-2". *)
Lemma distinct_identifiers_independent_witness :
  Some "node-1"%string ≠ Some "node-2"%string
  ∧ (∀ c (w : World Z) cls', call_unique_id c = Some "node-1"%string ->
       _previous_seeds cls' (final_world (invoke c w)) !! Some "node-2"%string
         = _previous_seeds cls' w !! Some "node-2"%string)
  ∧ (∀ cs (w : World Z), ∃ rs w' rs1 w1 rs2 w2,
       run_calls cs w = Returns rs w'
       ∧ run_calls (filter (addressed_to SeedSelectorInt (Some "node-1"%string)) cs) w
         = Returns rs1 w1
       ∧ run_calls (filter (addressed_to SeedSelectorInt (Some "node-2"%string)) cs) w
         = Returns rs2 w2
       ∧ returned_to SeedSelectorInt (Some "node-1"%string) cs rs = rs1
       ∧ returned_to SeedSelectorInt (Some "node-2"%string) cs rs = rs2).
Proof.
  split; [discriminate|].
  apply (distinct_identifiers_independent (Src:=Z) SeedSelectorInt
           (Some "node-1"%string) (Some "node-2"%string)).
  discriminate.
Defined.

(** C5 at the scenario "identifier absent on two successive calls with
    seed=5, seed=9", in the state that an execution for "node-1" left. *)
Lemma no_identifier_no_persistence_witness :
  let w := final_world
             (invoke (default_call SeedSelectorInt 42 (Some "node-1"%string))
                (initial_world 0)) in
  let c1 := default_call SeedSelectorInt 5 None in
  let c2 := default_call SeedSelectorInt 9 None in
  reachable w
  ∧ call_unique_id c1 = None
  ∧ call_unique_id c2 = None
  ∧ ∃ r1 r2,
      invoke c1 w = Returns r1 w
      ∧ previous_seed_of r1 = Some (PyInt 0)
      ∧ invoke c2 w = Returns r2 w
      ∧ previous_seed_of r2 = Some (PyInt 0)
      ∧ run_calls [c1; c2] w = Returns [r1; r2] w.
Proof.
  cbv zeta.
  assert (Hw : reachable
                 (final_world
                    (invoke (default_call SeedSelectorInt 42 (Some "node-1"%string))
                       (initial_world 0))))
    by apply reachable_invoke, reachable_initial.
  split; [exact Hw|]. split; [reflexivity|]. split; [reflexivity|].
  exact (no_identifier_no_persistence _
           (default_call SeedSelectorInt 5 None) (default_call SeedSelectorInt 9 None)
           Hw eq_refl eq_refl).
Defined.

(** C7 as stated fails: [SeedSelectorIntWithDisplay] returns no UI
    payload. *)
Lemma with_display_has_no_ui_payload :
  ∃ r w',
    invoke (default_call SeedSelectorIntWithDisplay 42 (Some "node-1"%string))
      (initial_world 0) = Returns r w'
    ∧ r = RetTuple [PyInt 42; PyInt 0; PyStr "Current: 42"; PyStr "Previous: 0"]
    ∧ ui_of r = None.
Proof. eexists _, _. split; [reflexivity|]. split; reflexivity. Qed.

(** The sampler at [INT32_MAX] on the concrete source, whose pool
    [INT32_MAX] would be the draw [INT32_MAX] of a sampler over
    [0, INT32_MAX]. *)
Lemma randint_inclusive_INT32_MAX_not_attained_witness :
  (∀ n s, 0 < n -> 0 <= (pool_randbelow n s).1 < n)
  ∧ ∃ r w',
      SeedSelectorInt._randint_inclusive INT32_MAX (initial_world INT32_MAX) = Returns r w'
      ∧ 0 <= r < INT32_MAX
      ∧ r ≠ INT32_MAX.
Proof.
  split; [exact pool_randbelow_range|].
  exact (randint_inclusive_INT32_MAX_not_attained (Src:=Z) pool_randbelow_range
           (initial_world INT32_MAX)).
Defined.

(** The sampler's bounds at [M = 6]. *)
Lemma randint_inclusive_inclusive_below_INT32_MAX_witness :
  (∀ n s, 0 < n -> 0 <= (pool_randbelow n s).1 < n)
  ∧ (∀ n r, 0 <= r < n -> ∃ s, (pool_randbelow n s).1 = r)
  ∧ 1 <= 6 <= INT32_MAX
  ∧ (∀ w : World Z, ∃ r w',
       SeedSelectorInt._randint_inclusive 6 w = Returns r w' ∧ 0 <= r <= 6)
  ∧ (6 < INT32_MAX ->
     ∀ d1 d2 d3, ∃ (s : Z) w',
       SeedSelectorInt._randint_inclusive 6 (mkWorld d1 d2 d3 s) = Returns 6 w').
Proof.
  split; [exact pool_randbelow_range|]. split; [exact pool_randbelow_onto|].
  assert (H6 : 1 <= 6 <= INT32_MAX) by (unfold INT32_MAX; lia).
  split; [exact H6|].
  exact (randint_inclusive_inclusive_below_INT32_MAX (Src:=Z)
           pool_randbelow_range pool_randbelow_onto 6 H6).
Defined.

(** C6 at [M = INT32_MAX + 1]. *)
Lemma randint_inclusive_clamped_above_witness :
  INT32_MAX < 2147483648
  ∧ SeedSelectorInt._randint_inclusive 2147483648
    = SeedSelectorInt._randint_inclusive (Src:=Z) INT32_MAX.
Proof.
  assert (H : INT32_MAX < 2147483648) by (unfold INT32_MAX; lia).
  split; [exact H|].
  exact (randint_inclusive_clamped_above (Src:=Z) 2147483648 H).
Defined.

(** C10 at [m = -5]. *)
Lemma randint_inclusive_total_witness :
  (∀ n s, 0 < n -> 0 <= (pool_randbelow n s).1 < n)
  ∧ (∃ n, 1 <= n
          ∧ SeedSelectorInt._randint_inclusive (-5) = secrets.randbelow (Src:=Z) n)
  ∧ (∃ r w', SeedSelectorInt._randint_inclusive (-5) (initial_world 5) = Returns r w')
  ∧ (∀ e w', SeedSelectorInt._randint_inclusive (-5) (initial_world 5) ≠ Raises e w')
  ∧ (-5 <= 0 ->
     ∃ w', SeedSelectorInt._randint_inclusive (-5) (initial_world 5) = Returns 0 w').
Proof.
  split; [exact pool_randbelow_range|].
  exact (randint_inclusive_total (Src:=Z) pool_randbelow_range (-5) (initial_world 5)).
Defined.

(** ** The contents of the dictionaries over a run *)

Section TrackerHistory.

Context {Src : Type} `{!SystemRandom Src}.

Implicit Types (w : World Src) (c : call) (cls : node_class)
  (k : option string) (d : gmap (option string) Z).

Lemma invoke_sysrand c w : sysrand (final_world (invoke c w)) = sysrand w.
Proof.
  rewrite invoke_final_world. destruct (is_not_None _); [|reflexivity].
  apply sysrand_set_previous_seeds.
Qed.

(** The entry of any node after one execution. *)
Lemma invoke_entry c w cls k :
  _previous_seeds cls (final_world (invoke c w)) !! k
    = if decide (addressed_to cls k c)
      then match k with
           | Some _ => Some (call_seed c)
           | None => _previous_seeds cls w !! None
           end
      else _previous_seeds cls w !! k.
Proof.
  destruct (decide (addressed_to cls k c)) as [[<- <-]|Hna].
  - apply invoke_entry_after.
  - apply invoke_frame. exact Hna.
Qed.

Lemma run_calls_cons_inv c cs w rs w' :
  run_calls (c :: cs) w = Returns rs w' ->
  ∃ r rs0,
    rs = r :: rs0
    ∧ invoke c w = Returns r (final_world (invoke c w))
    ∧ run_calls cs (final_world (invoke c w)) = Returns rs0 w'.
Proof.
  intros Hrun.
  destruct (invoke_returns c w) as (r & Hr & _).
  destruct (run_calls_returns cs (final_world (invoke c w))) as (rs0 & w0 & Hrs0 & _).
  rewrite (run_calls_cons c cs w r rs0 w0 Hr Hrs0) in Hrun.
  injection Hrun as <- <-. exists r, rs0. repeat split; assumption.
Qed.

Lemma seeds_to_cons cls k c cs :
  seeds_to cls k (c :: cs)
    = if decide (addressed_to cls k c)
      then call_seed c :: seeds_to cls k cs
      else seeds_to cls k cs.
Proof.
  unfold seeds_to. destruct (decide (addressed_to cls k c)) as [Ha|Hna].
  - rewrite filter_cons_True by exact Ha. reflexivity.
  - rewrite filter_cons_False by exact Hna. reflexivity.
Qed.

(** After a run, the entry of a node is the last seed that the run gave it;
    it is the entry from before the run when the run gave it none, or when
    the node has no identifier. The random source is where it was. *)
Lemma run_calls_entry cs :
  ∀ w rs w', run_calls cs w = Returns rs w' ->
    sysrand w' = sysrand w
    ∧ ∀ cls k,
        _previous_seeds cls w' !! k
          = match k, last (seeds_to cls k cs) with
            | Some _, Some s => Some s
            | _, _ => _previous_seeds cls w !! k
            end.
Proof.
  induction cs as [|c cs IH]; intros w rs w' Hrun.
  - injection Hrun as <- <-. split; [reflexivity|].
    intros cls [uid|]; reflexivity.
  - destruct (run_calls_cons_inv _ _ _ _ _ Hrun) as (r & rs0 & -> & Hr & Hrs0).
    destruct (IH _ _ _ Hrs0) as [Hsys Hent]. split.
    + rewrite Hsys. apply invoke_sysrand.
    + intros cls k. rewrite Hent. destruct k as [uid|].
      * rewrite invoke_entry, seeds_to_cons.
        destruct (decide (addressed_to cls (Some uid) c)) as [Ha|Hna]; [|reflexivity].
        rewrite last_cons.
        destruct (last (seeds_to cls (Some uid) cs)); reflexivity.
      * rewrite invoke_entry. destruct (decide _); reflexivity.
Qed.

(** For every run, and every node with an identifier: after the run the
    dictionary of the node's class holds, for the node, the seed of the last
    call of the run that went to it, and what it held before when no call
    went to it. No dictionary gets an entry for the key [None]. *)
Theorem tracker_holds_last_seed cs w :
  ∃ rs w',
    run_calls cs w = Returns rs w'
    ∧ (∀ cls (uid : string),
         _previous_seeds cls w' !! Some uid
           = match last (seeds_to cls (Some uid) cs) with
             | Some s => Some s
             | None => _previous_seeds cls w !! Some uid
             end)
    ∧ (∀ cls, _previous_seeds cls w' !! None = _previous_seeds cls w !! None).
Proof.
  destruct (run_calls_returns cs w) as (rs & w' & Hrun & _).
  destruct (run_calls_entry cs w rs w' Hrun) as [_ Hent].
  exists rs, w'. split; [exact Hrun|]. split.
  - intros cls uid. apply (Hent cls (Some uid)).
  - intros cls. apply (Hent cls None).
Qed.

(** Entries are never evicted, and a run adds entries only for the
    identifiers of its own calls: a key present before a run is present
    after it, and a key that appears during a run is the identifier of one
    of the run's calls to that class. *)
Theorem entries_never_evicted cs w :
  ∃ rs w',
    run_calls cs w = Returns rs w'
    ∧ (∀ cls k, is_Some (_previous_seeds cls w !! k) ->
         is_Some (_previous_seeds cls w' !! k))
    ∧ (∀ cls k, _previous_seeds cls w !! k = None ->
         is_Some (_previous_seeds cls w' !! k) ->
         ∃ c, c ∈ cs ∧ call_class c = cls ∧ call_unique_id c = k ∧ k ≠ None).
Proof.
  destruct (run_calls_returns cs w) as (rs & w' & Hrun & _).
  destruct (run_calls_entry cs w rs w' Hrun) as [_ Hent].
  exists rs, w'. split; [exact Hrun|]. split.
  - intros cls k Hsome. rewrite Hent.
    destruct k as [uid|]; [|exact Hsome].
    destruct (last _); [eauto|exact Hsome].
  - intros cls k Hnone Hsome. rewrite Hent in Hsome.
    destruct k as [uid|]; [|rewrite Hnone in Hsome; destruct Hsome; discriminate].
    destruct (last (seeds_to cls (Some uid) cs)) as [s|] eqn:Hlast;
      [|rewrite Hnone in Hsome; destruct Hsome; discriminate].
    apply last_Some_elem_of in Hlast. unfold seeds_to in Hlast.
    apply list_elem_of_fmap in Hlast as (c & _ & Hc).
    apply list_elem_of_filter in Hc as [[Hcls Huid] Hin].
    exists c. repeat split; try assumption. discriminate.
Qed.

End TrackerHistory.

(** ** How executions compose, and what they return *)

Section Composition.

Context {Src : Type} `{!SystemRandom Src}.

Implicit Types (w : World Src) (c : call) (cls : node_class)
  (k : option string) (d : gmap (option string) Z).

Lemma set_previous_seeds_twice cls d d' w :
  set_previous_seeds cls d' (set_previous_seeds cls d w) = set_previous_seeds cls d' w.
Proof. destruct cls; reflexivity. Qed.

Lemma set_previous_seeds_swap cls1 cls2 d1 d2 w :
  cls1 ≠ cls2 ->
  set_previous_seeds cls2 d2 (set_previous_seeds cls1 d1 w)
    = set_previous_seeds cls1 d1 (set_previous_seeds cls2 d2 w).
Proof. destruct cls1, cls2; intros Hne; try reflexivity; congruence. Qed.

Lemma admissible_seed_zero cls : admissible_seed cls 0 = true.
Proof. destruct cls; reflexivity. Qed.

(** One execution with an admissible seed, on admissible entries, returns an
    admissible previous seed and leaves admissible entries. *)
Lemma invoke_admissible c w :
  entries_admissible w ->
  admissible_seed (call_class c) (call_seed c) = true ->
  ∃ r p,
    invoke c w = Returns r (final_world (invoke c w))
    ∧ previous_seed_of r = Some (PyInt p)
    ∧ admissible_seed (call_class c) p = true
    ∧ entries_admissible (final_world (invoke c w)).
Proof.
  intros Hw Hseed.
  destruct (invoke_returns c w) as (r & Hr & _ & Hprev).
  exists r, (default 0 (_previous_seeds (call_class c) w !! call_unique_id c)).
  split; [exact Hr|]. split; [exact Hprev|]. split.
  - destruct (_previous_seeds (call_class c) w !! call_unique_id c) as [v|] eqn:Hv.
    + exact (Hw _ _ _ Hv).
    + apply admissible_seed_zero.
  - intros cls k v Hv. rewrite invoke_entry in Hv.
    destruct (decide (addressed_to cls k c)) as [[Hcls Hk]|Hna].
    + destruct k as [uid|].
      * injection Hv as <-. rewrite <- Hcls. exact Hseed.
      * exact (Hw _ _ _ Hv).
    + exact (Hw _ _ _ Hv).
Qed.

(** When the entries at the start of a run and the seeds of its calls are
    within the bounds that [INPUT_TYPES] declares for ["seed"], so is every
    previous seed that the run returns, and so are the entries it leaves. *)
Theorem previous_seeds_stay_admissible cs w :
  entries_admissible w ->
  Forall (λ c, admissible_seed (call_class c) (call_seed c) = true) cs ->
  ∃ rs w',
    run_calls cs w = Returns rs w'
    ∧ Forall2 (λ c r, ∃ p, previous_seed_of r = Some (PyInt p)
                          ∧ admissible_seed (call_class c) p = true) cs rs
    ∧ entries_admissible w'.
Proof.
  intros Hw Hcs. revert w Hw.
  induction Hcs as [|c cs Hc Hcs IH]; intros w Hw.
  - exists [], w. split; [reflexivity|]. split; [constructor|exact Hw].
  - destruct (invoke_admissible c w Hw Hc) as (r & p & Hr & Hp & Hadm & Hw1).
    destruct (IH _ Hw1) as (rs & w' & Hrs & Hall & Hw').
    exists (r :: rs), w'. split; [eapply run_calls_cons; eassumption|].
    split; [|exact Hw']. constructor; [|exact Hall]. eauto.
Qed.

(** The states that two executions for different nodes leave do not depend
    on their order. *)
Lemma invoke_swap_world c1 c2 w :
  call_class c1 ≠ call_class c2 ∨ call_unique_id c1 ≠ call_unique_id c2 ->
  final_world (invoke c2 (final_world (invoke c1 w)))
    = final_world (invoke c1 (final_world (invoke c2 w))).
Proof.
  intros Hdiff. rewrite !invoke_final_world.
  destruct (call_unique_id c1) as [u1|] eqn:H1;
    destruct (call_unique_id c2) as [u2|] eqn:H2; cbn [is_not_None];
    try reflexivity.
  destruct (decide (call_class c1 = call_class c2)) as [Heq|Hne].
  - rewrite Heq, !previous_seeds_set_same, !set_previous_seeds_twice.
    rewrite insert_insert_ne; [reflexivity|].
    destruct Hdiff as [Hc|Hu]; congruence.
  - rewrite (previous_seeds_set_other (call_class c1) (call_class c2)) by exact Hne.
    rewrite (previous_seeds_set_other (call_class c2) (call_class c1)) by congruence.
    apply set_previous_seeds_swap. exact Hne.
Qed.

(** Executions for different nodes (another class, or another identifier)
    commute: in either order each returns the same value, and the state left
    is the same. *)
Theorem executions_of_distinct_nodes_commute c1 c2 w :
  call_class c1 ≠ call_class c2 ∨ call_unique_id c1 ≠ call_unique_id c2 ->
  ∃ r1 r2 w',
    run_calls [c1; c2] w = Returns [r1; r2] w'
    ∧ run_calls [c2; c1] w = Returns [r2; r1] w'.
Proof.
  intros Hdiff.
  assert (Hna12 : ¬ addressed_to (call_class c2) (call_unique_id c2) c1)
    by (intros [Hc Hu]; destruct Hdiff; congruence).
  assert (Hna21 : ¬ addressed_to (call_class c1) (call_unique_id c1) c2)
    by (intros [Hc Hu]; destruct Hdiff; congruence).
  destruct (invoke_agree c1 w (final_world (invoke c2 w))) as (r1 & Hr1 & Hr1').
  { symmetry. apply invoke_frame. exact Hna21. }
  destruct (invoke_agree c2 w (final_world (invoke c1 w))) as (r2 & Hr2 & Hr2').
  { symmetry. apply invoke_frame. exact Hna12. }
  exists r1, r2, (final_world (invoke c2 (final_world (invoke c1 w)))).
  split.
  - apply run_calls_cons; [exact Hr1|].
    apply run_calls_cons; [exact Hr2'|reflexivity].
  - rewrite (invoke_swap_world c1 c2 w Hdiff).
    apply run_calls_cons; [exact Hr2|].
    apply run_calls_cons; [exact Hr1'|reflexivity].
Qed.

(** Running the same request twice leaves the state that running it once
    leaves; with an identifier, the second run returns the seed itself as
    previous seed. *)
Theorem repeated_execution_is_idempotent c w :
  ∃ r1 r2,
    run_calls [c; c] w = Returns [r1; r2] (final_world (invoke c w))
    ∧ (call_unique_id c ≠ None -> previous_seed_of r2 = seed_of r2).
Proof.
  destruct (invoke_returns c w) as (r1 & Hr1 & _).
  destruct (invoke_returns c (final_world (invoke c w))) as (r2 & Hr2 & Hs2 & Hp2).
  assert (Hsame : final_world (invoke c (final_world (invoke c w)))
                  = final_world (invoke c w)).
  { rewrite !invoke_final_world.
    destruct (call_unique_id c) as [uid|]; cbn [is_not_None]; [|reflexivity].
    rewrite previous_seeds_set_same, set_previous_seeds_twice, insert_insert_eq.
    reflexivity. }
  exists r1, r2. split.
  - apply run_calls_cons; [exact Hr1|].
    rewrite <- Hsame at 2. apply run_calls_cons; [exact Hr2|].
    rewrite Hsame. reflexivity.
  - intros Hid. rewrite Hp2, Hs2.
    destruct (call_unique_id c) as [uid|] eqn:Huid; [|congruence].
    rewrite <- Huid, invoke_entry_after, Huid. reflexivity.
Qed.

(** The output tuple of every execution fits the declaration of its class:
    it has one value per name of [RETURN_NAMES], each of the type that
    [RETURN_TYPES] gives at its position; the output named ["seed"] is the
    seed given, and the output named ["previous_seed"] is the entry read
    before the update (0 when there was none). *)
Theorem outputs_match_declaration c w :
  ∃ r w',
    invoke c w = Returns r w'
    ∧ length (result_of r) = length (RETURN_NAMES (call_class c))
    ∧ Forall2 (λ t v, has_return_type t v = true)
        (RETURN_TYPES (call_class c)) (result_of r)
    ∧ (∀ i, RETURN_NAMES (call_class c) !! i = Some "seed"%string ->
         result_of r !! i = Some (PyInt (call_seed c)))
    ∧ (∀ i, RETURN_NAMES (call_class c) !! i = Some "previous_seed"%string ->
         result_of r !! i
           = Some (PyInt (default 0
                            (_previous_seeds (call_class c) w !! call_unique_id c)))).
Proof.
  assert (Hnames : ∀ cls (i : nat) (name : string),
            RETURN_NAMES cls !! i = Some name ->
            (name = "seed"%string -> i = 0%nat)
            ∧ (name = "previous_seed"%string -> i = 1%nat)).
  { intros cls i name Hi.
    destruct cls; repeat (destruct i as [|i]; [injection Hi as <-; split; intros [=]; reflexivity|]);
      discriminate. }
  destruct c as [cls seed mv mode uid extra].
  destruct (invoke_returns (mkCall cls seed mv mode uid extra) w) as (r & Hr & Hs & Hp).
  exists r, (final_world (invoke (mkCall cls seed mv mode uid extra) w)).
  split; [exact Hr|].
  assert (Hshape : length (result_of r) = length (RETURN_NAMES cls)
                   ∧ Forall2 (λ t v, has_return_type t v = true)
                       (RETURN_TYPES cls) (result_of r)).
  { clear Hs Hp. destruct cls, uid; injection Hr as <-; split;
      try reflexivity; repeat constructor. }
  destruct Hshape as [Hlen Htypes].
  split; [exact Hlen|]. split; [exact Htypes|]. split.
  - intros i Hi. destruct (Hnames _ _ _ Hi) as [H0 _].
    rewrite (H0 eq_refl). exact Hs.
  - intros i Hi. destruct (Hnames _ _ _ Hi) as [_ H1].
    rewrite (H1 eq_refl). exact Hp.
Qed.

End Composition.

(** ** The sampler, the schema and the tracker *)

(** The field ["seed"] of every class admits exactly the integers from 0 to
    [INT32_MAX]. *)
Lemma admissible_seed_iff (cls : node_class) (z : Z) :
  admissible_seed cls z = true ↔ 0 <= z <= INT32_MAX.
Proof.
  assert (H : admissible_seed cls z = (0 <=? z) && (z <=? INT32_MAX))
    by (destruct cls; reflexivity).
  rewrite H, andb_true_iff, !Z.leb_le. reflexivity.
Qed.

Section SamplerImage.

Context {Src : Type} `{!SystemRandom Src}.

Implicit Types (w : World Src) (c : call) (cls : node_class).

(** Sampling changes no dictionary, so an execution returns the same value
    whether or not a sampling came before it. *)
Theorem sampling_leaves_tracker_alone m c w :
  (∀ cls,
     _previous_seeds cls (final_world (SeedSelectorInt._randint_inclusive m w))
       = _previous_seeds cls w)
  ∧ ∃ r w1 w2,
      invoke c w = Returns r w1
      ∧ invoke c (final_world (SeedSelectorInt._randint_inclusive m w)) = Returns r w2
      ∧ ∀ cls, _previous_seeds cls w2 = _previous_seeds cls w1.
Proof.
  split; [intros cls; apply randint_inclusive_previous_seeds|].
  set (w' := final_world (SeedSelectorInt._randint_inclusive m w)).
  assert (Hsame : ∀ cls, _previous_seeds cls w' = _previous_seeds cls w)
    by (intros cls; apply randint_inclusive_previous_seeds).
  destruct (invoke_agree c w w') as (r & Hr & Hr').
  { rewrite Hsame. reflexivity. }
  exists r, (final_world (invoke c w)), (final_world (invoke c w')).
  split; [exact Hr|]. split; [exact Hr'|].
  intros cls. rewrite !invoke_final_world.
  destruct (is_not_None (call_unique_id c)); [|apply Hsame].
  destruct (decide (call_class c = cls)) as [<-|Hne].
  - rewrite !previous_seeds_set_same, Hsame. reflexivity.
  - rewrite !previous_seeds_set_other by exact Hne. apply Hsame.
Qed.

Hypothesis _randbelow_range :
  ∀ n s, 0 < n -> 0 <= (_randbelow n s).1 < n.
Hypothesis _randbelow_onto :
  ∀ n r, 0 <= r < n -> ∃ s, (_randbelow n s).1 = r.

(** For every integer [m], the values that the sampler can return are exactly
    the integers from 0 to the clamped bound that are below [INT32_MAX]. *)
Theorem randint_inclusive_image m r d1 d2 d3 :
  (∃ s w', SeedSelectorInt._randint_inclusive m (mkWorld d1 d2 d3 s) = Returns r w')
  ↔ 0 <= r <= Z.max 0 (Z.min m INT32_MAX) ∧ r < INT32_MAX.
Proof.
  split.
  - intros (s & w' & Hrun).
    destruct (randint_inclusive_range _randbelow_range m (mkWorld d1 d2 d3 s))
      as (r' & w'' & Hrun' & Hr & Hlt).
    rewrite Hrun in Hrun'. injection Hrun' as -> _.
    split; [exact Hr|].
    destruct (Z_lt_le_dec m INT32_MAX) as [Hm|Hm]; [|exact (Hlt Hm)].
    unfold INT32_MAX in *. lia.
  - intros [Hr Hlt].
    pose proof (randint_inclusive_bound_positive m) as Hpos.
    set (n := if Z.max 0 (Z.min m INT32_MAX) <? INT32_MAX
              then Z.max 0 (Z.min m INT32_MAX) + 1 else INT32_MAX) in *.
    assert (Hrn : 0 <= r < n).
    { subst n. destruct (_ <? _); lia. }
    destruct (_randbelow_onto n r Hrn) as [s Hs].
    exists s. rewrite randint_inclusive_unfold. fold n.
    rewrite randbelow_positive by lia. cbn [sysrand]. rewrite Hs. eauto.
Qed.

(** Whatever bound it is given, the sampler returns a value that the field
    ["seed"] of every class admits. *)
Theorem sampler_returns_admissible_seed m w cls :
  ∃ r w',
    SeedSelectorInt._randint_inclusive m w = Returns r w'
    ∧ admissible_seed cls r = true.
Proof.
  destruct (randint_inclusive_range _randbelow_range m w) as (r & w' & Hrun & Hr & _).
  exists r, w'. split; [exact Hrun|].
  apply admissible_seed_iff. unfold INT32_MAX in *. lia.
Qed.

End SamplerImage.

(** ** The display strings *)

(** The decimal rendering of an integer holds no space. *)
Lemma pretty_N_go_no_space (x : N) (s : string) :
  has_space (pretty_N_go x s) = has_space s.
Proof.
  revert s. induction (N.lt_wf_0 x) as [x _ IH]; intros s.
  destruct (decide (x = 0%N)) as [->|Hx].
  - rewrite pretty_N_go_0. reflexivity.
  - rewrite pretty_N_go_step by lia.
    rewrite IH by (apply N.div_lt; lia).
    unfold pretty_N_char. repeat case_match; reflexivity.
Qed.

Lemma py_str_int_no_space (z : Z) : has_space (py_str_int z) = false.
Proof.
  assert (HN : ∀ p : positive, has_space (pretty (N.pos p)) = false).
  { intros p. unfold pretty, pretty_N.
    destruct (decide (N.pos p = 0%N)); [discriminate|].
    apply pretty_N_go_no_space. }
  unfold py_str_int, pretty, pretty_Z. destruct z as [|p|p].
  - reflexivity.
  - apply HN.
  - cbn. apply HN.
Qed.

(** Two strings that continue with a space after a part without spaces are
    equal only when the parts are equal and the rests are equal. *)
Lemma split_at_first_space (a a' r r' : string) :
  has_space a = false -> has_space a' = false ->
  (a +:+ String " " r = a' +:+ String " " r')%string ->
  a = a' ∧ r = r'.
Proof.
  revert a'. induction a as [|x a IH]; intros [|x' a'] Ha Ha' Heq; cbn in *.
  - injection Heq as ->. split; reflexivity.
  - injection Heq as <- _. discriminate.
  - injection Heq as -> _. discriminate.
  - injection Heq as -> Heq.
    apply orb_false_iff in Ha as [_ Ha]. apply orb_false_iff in Ha' as [_ Ha'].
    destruct (IH _ Ha Ha' Heq) as [-> ->]. split; reflexivity.
Qed.

Section DisplayStrings.

Context {Src : Type}.

Implicit Types (w : World Src).

(** The display strings of [SeedSelectorIntWithDisplay] identify the numbers
    they show: two executions that return the same [seed_display] (output 2)
    return the same [seed], and two that return the same [previous_display]
    (output 3) return the same [previous_seed]. *)
Theorem display_strings_identify_seeds
    seed1 mv1 uid1 extra1 w1 seed2 mv2 uid2 extra2 w2 :
  ∃ r1 w1' r2 w2',
    SeedSelectorIntWithDisplay.select seed1 mv1 uid1 extra1 w1 = Returns r1 w1'
    ∧ SeedSelectorIntWithDisplay.select seed2 mv2 uid2 extra2 w2 = Returns r2 w2'
    ∧ (result_of r1 !! 2%nat = result_of r2 !! 2%nat -> seed_of r1 = seed_of r2)
    ∧ (result_of r1 !! 3%nat = result_of r2 !! 3%nat ->
         previous_seed_of r1 = previous_seed_of r2).
Proof.
  assert (Hnum : ∀ pre s s',
            (pre +:+ py_str_int s = pre +:+ py_str_int s')%string -> s = s').
  { intros pre s s' Heq. apply (inj (String.append pre)) in Heq.
    apply (inj pretty) in Heq. exact Heq. }
  destruct uid1, uid2; eexists _, _, _, _; (split; [reflexivity|]);
    (split; [reflexivity|]); unfold seed_of, previous_seed_of;
    cbn [result_of lookup list_lookup]; unfold py_int;
    split; intros [= Heq]; apply Hnum in Heq; do 2 f_equal; exact Heq.
Qed.

(** The debug string of [MySeedSelectorInt] (output 2) identifies what it was
    built from: two executions that return the same string returned the same
    [seed] and the same [previous_seed], and were given the same
    [control_after_generate]. *)
Theorem debug_string_identifies_its_parts
    seed1 mode1 uid1 extra1 w1 seed2 mode2 uid2 extra2 w2 :
  ∃ r1 w1' r2 w2',
    MySeedSelectorInt.select seed1 mode1 uid1 extra1 w1 = Returns r1 w1'
    ∧ MySeedSelectorInt.select seed2 mode2 uid2 extra2 w2 = Returns r2 w2'
    ∧ (result_of r1 !! 2%nat = result_of r2 !! 2%nat ->
         seed_of r1 = seed_of r2
         ∧ previous_seed_of r1 = previous_seed_of r2
         ∧ mode1 = mode2).
Proof.
  assert (Hparts : ∀ s p m s' p' m',
            (py_str_int s +:+ " | previous=" +:+ py_str_int p +:+ " | mode=" +:+ m
             = py_str_int s' +:+ " | previous=" +:+ py_str_int p' +:+ " | mode=" +:+ m')%string ->
            s = s' ∧ p = p' ∧ m = m').
  { intros s p m s' p' m' Heq.
    apply split_at_first_space in Heq as [Hs Heq]; try apply py_str_int_no_space.
    apply (inj (String.append "| previous=")) in Heq.
    apply split_at_first_space in Heq as [Hp Heq]; try apply py_str_int_no_space.
    apply (inj (String.append "| mode=")) in Heq.
    apply (inj pretty) in Hs. apply (inj pretty) in Hp. auto. }
  destruct uid1, uid2; eexists _, _, _, _; (split; [reflexivity|]);
    (split; [reflexivity|]); unfold seed_of, previous_seed_of;
    cbn [result_of lookup list_lookup]; unfold py_int;
    intros [= Heq]; destruct (Hparts _ _ _ _ _ _ Heq) as (Hs & Hp & Hm);
    (split; [do 2 f_equal; exact Hs|split; [do 2 f_equal; exact Hp|exact Hm]]).
Qed.

End DisplayStrings.

(** ** The schemas and the registration tables *)

(** Every field that a class declares has a default that the field itself
    admits, and the defaults that [select] gives its optional parameters
    ([max_val], [control_after_generate]) are the declared ones. *)
Theorem declared_defaults_are_admissible (cls : node_class) :
  Forall (λ field, ∃ v, declared_default field.2 = Some v
                        ∧ admissible field.2 v = true)
    (required (INPUT_TYPES cls) ++ optional (INPUT_TYPES cls))
  ∧ (∀ seed uid spec,
       dict_lookup "max_val" (optional (INPUT_TYPES cls)) = Some spec ->
       declared_default spec = Some (PyInt (call_max_val (default_call cls seed uid))))
  ∧ (∀ seed uid spec,
       dict_lookup "control_after_generate" (optional (INPUT_TYPES cls)) = Some spec ->
       declared_default spec
         = Some (PyStr (call_control_after_generate (default_call cls seed uid)))).
Proof.
  split; [|split].
  - destruct cls; cbn [INPUT_TYPES required optional app];
      repeat (apply Forall_cons; split;
                [eexists; split; [reflexivity|vm_compute; reflexivity]|]);
      constructor.
  - intros seed uid spec. destruct cls; intros [= <-]; reflexivity.
  - intros seed uid spec. destruct cls; intros [= <-]; reflexivity.
Qed.

(** The two registration tables have the same keys, in the same order and
    without repetition; every class is registered, under one key only, and
    no two keys share a display name. *)
Theorem registration_tables_agree :
  NODE_CLASS_MAPPINGS.*1 = NODE_DISPLAY_NAME_MAPPINGS.*1
  ∧ NoDup (NODE_CLASS_MAPPINGS.*1)
  ∧ (∀ cls, ∃ key, dict_lookup key NODE_CLASS_MAPPINGS = Some cls
                   ∧ is_Some (dict_lookup key NODE_DISPLAY_NAME_MAPPINGS))
  ∧ NoDup (NODE_CLASS_MAPPINGS.*2)
  ∧ NoDup (NODE_DISPLAY_NAME_MAPPINGS.*2).
Proof.
  split; [reflexivity|]. split; [apply (bool_decide_unpack _); vm_compute; reflexivity|].
  split.
  - intros [];
      [exists "SeedSelectorInt"%string
      |exists "MySeedSelectorInt"%string
      |exists "SeedSelectorIntWithDisplay"%string];
      (split; [reflexivity|]); eexists; reflexivity.
  - split; apply (bool_decide_unpack _); vm_compute; reflexivity.
Qed.

(** ** Instances on the concrete source *)

Lemma initial_world_entries_admissible {Src : Type} (s : Src) :
  entries_admissible (initial_world s).
Proof.
  intros cls k v Hv.
  assert (Hempty : _previous_seeds cls (initial_world s) = ∅) by (destruct cls; reflexivity).
  rewrite Hempty, lookup_empty in Hv. discriminate.
Qed.

(** Two executions for "node-1", with the seeds 42 and [INT32_MAX], from the
    state at import time. *)
Lemma previous_seeds_stay_admissible_witness :
  let cs := [default_call SeedSelectorInt 42 (Some "node-1"%string);
             default_call SeedSelectorInt INT32_MAX (Some "node-1"%string)] in
  entries_admissible (initial_world 0)
  ∧ Forall (λ c, admissible_seed (call_class c) (call_seed c) = true) cs
  ∧ ∃ rs w',
      run_calls cs (initial_world 0) = Returns rs w'
      ∧ Forall2 (λ c r, ∃ p, previous_seed_of r = Some (PyInt p)
                            ∧ admissible_seed (call_class c) p = true) cs rs
      ∧ entries_admissible w'.
Proof.
  cbv zeta.
  assert (Hcs : Forall (λ c, admissible_seed (call_class c) (call_seed c) = true)
                  [default_call SeedSelectorInt 42 (Some "node-1"%string);
                   default_call SeedSelectorInt INT32_MAX (Some "node-1"%string)])
    by (repeat constructor).
  split; [apply initial_world_entries_admissible|]. split; [exact Hcs|].
  exact (previous_seeds_stay_admissible _ (initial_world 0)
           (initial_world_entries_admissible 0) Hcs).
Defined.

(** An execution for "node-1" and one for "node-2" of the same class. *)
Lemma executions_of_distinct_nodes_commute_witness :
  let c1 := default_call SeedSelectorInt 42 (Some "node-1"%string) in
  let c2 := default_call SeedSelectorInt 7 (Some "node-2"%string) in
  (call_class c1 ≠ call_class c2 ∨ call_unique_id c1 ≠ call_unique_id c2)
  ∧ ∃ r1 r2 w',
      run_calls [c1; c2] (initial_world 0) = Returns [r1; r2] w'
      ∧ run_calls [c2; c1] (initial_world 0) = Returns [r2; r1] w'.
Proof.
  cbv zeta.
  assert (Hdiff : call_class (default_call SeedSelectorInt 42 (Some "node-1"%string))
                    ≠ call_class (default_call SeedSelectorInt 7 (Some "node-2"%string))
                  ∨ call_unique_id (default_call SeedSelectorInt 42 (Some "node-1"%string))
                    ≠ call_unique_id (default_call SeedSelectorInt 7 (Some "node-2"%string)))
    by (right; discriminate).
  split; [exact Hdiff|].
  exact (executions_of_distinct_nodes_commute _ _ (initial_world 0) Hdiff).
Defined.

(** The values that the sampler can return at the bound 6. *)
Lemma randint_inclusive_image_witness :
  (∀ n s, 0 < n -> 0 <= (pool_randbelow n s).1 < n)
  ∧ (∀ n r, 0 <= r < n -> ∃ s, (pool_randbelow n s).1 = r)
  ∧ ((∃ (s : Z) w',
        SeedSelectorInt._randint_inclusive 6 (mkWorld ∅ ∅ ∅ s) = Returns 6 w')
     ↔ 0 <= 6 <= Z.max 0 (Z.min 6 INT32_MAX) ∧ 6 < INT32_MAX).
Proof.
  split; [exact pool_randbelow_range|]. split; [exact pool_randbelow_onto|].
  exact (randint_inclusive_image (Src:=Z) pool_randbelow_range pool_randbelow_onto
           6 6 ∅ ∅ ∅).
Defined.

(** The sampler at the bound [INT32_MAX]. *)
Lemma sampler_returns_admissible_seed_witness :
  (∀ n s, 0 < n -> 0 <= (pool_randbelow n s).1 < n)
  ∧ ∃ r w',
      SeedSelectorInt._randint_inclusive INT32_MAX (initial_world INT32_MAX)
        = Returns r w'
      ∧ admissible_seed SeedSelectorInt r = true.
Proof.
  split; [exact pool_randbelow_range|].
  exact (sampler_returns_admissible_seed (Src:=Z) pool_randbelow_range
           INT32_MAX (initial_world INT32_MAX) SeedSelectorInt).
Defined.

(** ** The bounds of the sampler, as the code has them *)

Section SamplerBounds.

Context {Src : Type} `{!SystemRandom Src}.

Hypothesis _randbelow_range :
  ∀ n s, 0 < n -> 0 <= (_randbelow n s).1 < n.
Hypothesis _randbelow_onto :
  ∀ n r, 0 <= r < n -> ∃ s, (_randbelow n s).1 = r.

(** C2, as the code has it: for every [M] from 1 to [INT32_MAX] the sampler
    returns a value between 0 and [M]; for [M < INT32_MAX] some draw of the
    source makes it return [M] itself; at [M = INT32_MAX] the sampler draws
    below [INT32_MAX], so every value returned is at most [INT32_MAX - 1],
    and some draw makes it return [INT32_MAX - 1]. *)
Theorem randint_inclusive_bounds M :
  1 <= M <= INT32_MAX ->
  (∀ w : World Src, ∃ r w',
     SeedSelectorInt._randint_inclusive M w = Returns r w' ∧ 0 <= r <= M)
  ∧ (M < INT32_MAX ->
     ∀ d1 d2 d3, ∃ (s : Src) w',
       SeedSelectorInt._randint_inclusive M (mkWorld d1 d2 d3 s) = Returns M w')
  ∧ (M = INT32_MAX ->
     (∀ (w : World Src) r w',
        SeedSelectorInt._randint_inclusive M w = Returns r w' -> r <= M - 1)
     ∧ ∀ d1 d2 d3, ∃ (s : Src) w',
         SeedSelectorInt._randint_inclusive M (mkWorld d1 d2 d3 s)
           = Returns (M - 1) w').
Proof.
  intros HM. split; [|split].
  - intros w.
    destruct (randint_inclusive_range _randbelow_range M w)
      as (r & w' & Hrun & Hr & _).
    exists r, w'. split; [exact Hrun|]. lia.
  - intros Hlt d1 d2 d3.
    apply (randint_inclusive_attains _randbelow_onto). lia.
  - intros ->. split.
    + intros w r w' Hrun.
      destruct (randint_inclusive_range _randbelow_range INT32_MAX w)
        as (r' & w'' & Hrun' & _ & Hlt).
      rewrite Hrun in Hrun'. injection Hrun' as -> _.
      specialize (Hlt ltac:(lia)). lia.
    + intros d1 d2 d3.
      assert (Hin : 0 <= INT32_MAX - 1 < INT32_MAX) by (unfold INT32_MAX; lia).
      destruct (_randbelow_onto INT32_MAX (INT32_MAX - 1) Hin) as [s Hs].
      exists s. rewrite randint_inclusive_unfold.
      replace (Z.max 0 (Z.min INT32_MAX INT32_MAX)) with INT32_MAX
        by (unfold INT32_MAX; lia).
      rewrite Z.ltb_irrefl.
      rewrite randbelow_positive by (unfold INT32_MAX; lia).
      cbn [sysrand]. rewrite Hs. eauto.
Qed.

End SamplerBounds.

(** C2 at [M = INT32_MAX], on the concrete source. *)
Lemma randint_inclusive_bounds_witness :
  (∀ n s, 0 < n -> 0 <= (pool_randbelow n s).1 < n)
  ∧ (∀ n r, 0 <= r < n -> ∃ s, (pool_randbelow n s).1 = r)
  ∧ 1 <= INT32_MAX <= INT32_MAX
  ∧ (∀ w : World Z, ∃ r w',
       SeedSelectorInt._randint_inclusive INT32_MAX w = Returns r w'
       ∧ 0 <= r <= INT32_MAX)
  ∧ (INT32_MAX < INT32_MAX ->
     ∀ d1 d2 d3, ∃ (s : Z) w',
       SeedSelectorInt._randint_inclusive INT32_MAX (mkWorld d1 d2 d3 s)
         = Returns INT32_MAX w')
  ∧ (INT32_MAX = INT32_MAX ->
     (∀ (w : World Z) r w',
        SeedSelectorInt._randint_inclusive INT32_MAX w = Returns r w' ->
        r <= INT32_MAX - 1)
     ∧ ∀ d1 d2 d3, ∃ (s : Z) w',
         SeedSelectorInt._randint_inclusive INT32_MAX (mkWorld d1 d2 d3 s)
           = Returns (INT32_MAX - 1) w').
Proof.
  split; [exact pool_randbelow_range|]. split; [exact pool_randbelow_onto|].
  assert (HM : 1 <= INT32_MAX <= INT32_MAX) by (unfold INT32_MAX; lia).
  split; [exact HM|].
  exact (randint_inclusive_bounds (Src:=Z) pool_randbelow_range pool_randbelow_onto
           INT32_MAX HM).
Defined.

(** C2 as stated fails at [M = INT32_MAX]: no draw of the source makes the
    sampler return [INT32_MAX]. *)
Lemma randint_inclusive_INT32_MAX_counterexample :
  ¬ ∃ (s : Z) w',
      SeedSelectorInt._randint_inclusive INT32_MAX (mkWorld ∅ ∅ ∅ s)
        = Returns INT32_MAX w'.
Proof.
  intros (s & w' & Hrun).
  destruct (@randint_inclusive_INT32_MAX_not_attained Z pool_SystemRandom
              pool_randbelow_range (mkWorld ∅ ∅ ∅ s)) as (r & w'' & Hrun' & _ & Hne).
  rewrite Hrun in Hrun'. injection Hrun' as <- _. apply Hne. reflexivity.
Qed.
